(** * ynabinterfaceslib: the interfaces of [ynabinterfaceslib.py]

    A shallow embedding of the three pieces of [ynabinterfaceslib.py] that
    carry behaviour -- [Transaction._clean_up], the [Comparable] mixin and
    [AccountAuthenticator.get_authenticated_session] -- with the properties
    the specification states about them, and further properties the code
    shows. *)

From Stdlib Require Import ZArith NArith Lia.
From stdpp Require Import gmap strings list finite pretty.

(** ** Python exceptions and results

    A call either returns a value or raises; the exceptions are the ones the
    module raises itself or lets through. *)

Inductive exn : Type :=
| ValueError (msg : string)
| AttributeError (name : string)
| KeyError (key : string)
| TypeError (msg : string)
| WebDriverException (msg : string).

Inductive result (A : Type) : Type :=
| Ok (a : A)
| Raise (e : exn).

Arguments Ok {A} a.
Arguments Raise {A} e.

#[global] Instance result_ret : MRet result := fun A a => Ok a.

#[global] Instance result_bind : MBind result := fun A B k r =>
  match r with
  | Ok a => k a
  | Raise e => Raise e
  end.

Definition returns {A : Type} (r : result A) : Prop := exists a, r = Ok a.

(** The Python values that attributes and cookie fields hold here. Beside
    [None], booleans, integers and strings, an object of a class of the
    caller's that has a [__repr__] of its own: the text that [__repr__]
    returns, and a number that tells two such objects apart. *)
Inductive value : Type :=
| VNone
| VBool (b : bool)
| VInt (z : Z)
| VStr (s : string)
| VObj (text : string) (id : N).

#[global] Instance value_eq_dec : EqDecision value.
Proof. solve_decision. Defined.

(** ** [Transaction._clean_up]

    A Python [str] is a sequence of code points. *)

Module Transaction.

Abbreviation pystr := (list N).

Local Open Scope N_scope.

Definition NUL : N := 0.
Definition SPACE : N := 32.

(** [str.isspace] on one code point, which is what [str.split()] with no
    argument separates on: the code points CPython classifies as whitespace
    (U+0009..U+000D, U+001C..U+0020, U+0085, U+00A0, U+1680, U+2000..U+200A,
    U+2028, U+2029, U+202F, U+205F, U+3000). *)
Definition isspace (c : N) : bool :=
  ((9 <=? c) && (c <=? 13))
  || ((28 <=? c) && (c <=? 32))
  || (c =? 133) || (c =? 160) || (c =? 5760)
  || ((8192 <=? c) && (c <=? 8202))
  || (c =? 8232) || (c =? 8233) || (c =? 8239) || (c =? 8287)
  || (c =? 12288).

(** [string.split()]: scan left to right, [tok] being the word read so far;
    a whitespace character ends the word, and empty words are dropped. *)
Fixpoint split_from (tok s : pystr) : list pystr :=
  match s with
  | [] => match tok with [] => [] | _ => [tok] end
  | c :: s' =>
      if isspace c
      then match tok with
           | [] => split_from [] s'
           | _ => tok :: split_from [] s'
           end
      else split_from (tok ++ [c]) s'
  end.

Definition split (s : pystr) : list pystr := split_from [] s.

(** [sep.join(words)]. *)
Fixpoint join (sep : pystr) (words : list pystr) : pystr :=
  match words with
  | [] => []
  | [w] => w
  | w :: ws => w ++ sep ++ join sep ws
  end.

Fixpoint startswith (s old : pystr) {struct old} : bool :=
  match old, s with
  | [], _ => true
  | _ :: _, [] => false
  | o :: old', c :: s' => (c =? o) && startswith s' old'
  end.

(** [s.replace(old, new)] for a non-empty [old]: the occurrences of [old]
    are replaced left to right, without overlap; [skip] counts the
    characters of a matched occurrence still to be passed over. *)
Fixpoint replace_from (old new : pystr) (skip : nat) (s : pystr) : pystr :=
  match s with
  | [] => []
  | c :: s' =>
      match skip with
      | S k => replace_from old new k s'
      | O =>
          if startswith s old
          then new ++ replace_from old new (pred (length old)) s'
          else c :: replace_from old new O s'
      end
  end.

Definition replace (old new s : pystr) : pystr :=
  match old with
  | [] => new ++ flat_map (fun c => c :: new) s
  | _ => replace_from old new O s
  end.

(** [" ".join(string.split()).replace('\x00', '')] *)
Definition _clean_up (string : pystr) : pystr :=
  replace [NUL] [] (join [SPACE] (split string)).

(** What the specification asks of a cleaned-up text, as checks on it:
    no whitespace in front, none at the end, no two in a row. *)
Definition leading_space (s : pystr) : bool :=
  match s with
  | c :: _ => isspace c
  | [] => false
  end.

Definition trailing_space (s : pystr) : bool :=
  match last s with
  | Some c => isspace c
  | None => false
  end.

Fixpoint space_run (s : pystr) : bool :=
  match s with
  | c :: s' => (isspace c && leading_space s') || space_run s'
  | [] => false
  end.

(** The words [split] returns are non-empty and free of whitespace. *)
Definition word (w : pystr) : Prop :=
  w <> [] /\ Forall (fun c => isspace c = false) w.

(** A character that shows: neither whitespace nor NUL. *)
Definition visible (c : N) : Prop := isspace c = false /\ c <> NUL.

#[global] Instance visible_dec (c : N) : Decision (visible c).
Proof. unfold visible. apply _. Defined.

(** A text in clean form: no NUL, no whitespace other than the plain space,
    none in front, none at the end, no two in a row. *)
Definition clean (s : pystr) : Prop :=
  NUL ∉ s /\
  (forall c, c ∈ s -> isspace c = true -> c = SPACE) /\
  leading_space s = false /\
  trailing_space s = false /\
  space_run s = false.

(** A text of whitespace only (the empty text among them). *)
Definition blank (s : pystr) : Prop := Forall (fun c => isspace c = true) s.

(** The NULs of a text deleted. *)
Definition without_nul (s : pystr) : pystr := filter (fun c => c <> NUL) s.

End Transaction.

(** ** [Comparable] *)

Module Comparable.

(** The two builtins [Comparable] relies on: [repr], through which
    [str(OrderedDict)] prints keys and values, and [hash] on a [str]. *)
Class Builtins : Type := {
  repr : value -> string;
  hash : string -> Z;
}.

(** An instance of a subclass: the attribute names the subclass declares in
    [_comparable_attributes], and what [getattr] finds on the instance
    (among them [_data], [_logger] and whatever else the subclass keeps). *)
Record obj : Type := {
  _comparable_attributes : list string;
  attributes : gmap string value;
}.

Definition getattr (self : obj) (key : string) : result value :=
  match attributes self !! key with
  | Some v => Ok v
  | None => Raise (AttributeError key)
  end.

(** A [dict] keeps insertion order: setting a key already present replaces
    its value where it stands. *)
Fixpoint setitem (key : string) (v : value) (d : list (string * value))
  : list (string * value) :=
  match d with
  | [] => [(key, v)]
  | (k, w) :: d' =>
      if decide (k = key) then (key, v) :: d' else (k, w) :: setitem key v d'
  end.

(** [{key: getattr(self, key) for key in keys}], started from [d]. *)
Fixpoint comprehension (self : obj) (keys : list string)
    (d : list (string * value)) : result (list (string * value)) :=
  match keys with
  | [] => Ok d
  | key :: keys' =>
      v ← getattr self key;
      comprehension self keys' (setitem key v d)
  end.

(** [OrderedDict({key: getattr(self, key) for key in self._comparable_attributes})] *)
Definition _comparable_data (self : obj) : result (list (string * value)) :=
  comprehension self (_comparable_attributes self) [].

Section WithBuiltins.
Context `{Builtins}.

Definition str_item (kv : string * value) : string :=
  "(" +:+ repr (VStr kv.1) +:+ ", " +:+ repr kv.2 +:+ ")".

(** [str] of an [OrderedDict]: [OrderedDict([('a', 1), ('b', 2)])], and
    [OrderedDict()] when it is empty. *)
Definition str (d : list (string * value)) : string :=
  match d with
  | [] => "OrderedDict()"
  | _ => "OrderedDict([" +:+ String.concat ", " (map str_item d) +:+ "])"
  end.

(** [hash(str(self._comparable_data))] *)
Definition __hash__ (self : obj) : result Z :=
  d ← _comparable_data self;
  Ok (hash (str d)).

(** The other operand of a comparison: a [Comparable], or anything else. *)
Inductive pyobj : Type :=
| IsComparable (o : obj)
| NotComparable (v : value).

Definition __eq__ (self : obj) (other : pyobj) : result bool :=
  match other with
  | NotComparable _ => Raise (ValueError "Not a Comparable object")
  | IsComparable o =>
      h ← __hash__ self;
      h' ← __hash__ o;
      Ok (h =? h')%Z
  end.

Definition __ne__ (self : obj) (other : pyobj) : result bool :=
  match other with
  | NotComparable _ => Raise (ValueError "Not a Comparable object")
  | IsComparable o =>
      h ← __hash__ self;
      h' ← __hash__ o;
      Ok (negb (h =? h')%Z)
  end.

End WithBuiltins.

(** Every attribute the instance declares can be read. *)
Definition declared_readable (self : obj) : Prop :=
  forall key, key ∈ _comparable_attributes self -> is_Some (attributes self !! key).

(** The two instances declare the same attributes and hold the same value
    under each of them. *)
Definition same_declared (x y : obj) : Prop :=
  _comparable_attributes x = _comparable_attributes y /\
  forall key, key ∈ _comparable_attributes x ->
    exists v, attributes x !! key = Some v /\ attributes y !! key = Some v.

(** The two instances declare the same attributes, can read them all, and
    hold different values under one of them. *)
Definition differ_declared (x y : obj) : Prop :=
  _comparable_attributes x = _comparable_attributes y /\
  declared_readable x /\ declared_readable y /\
  exists key, key ∈ _comparable_attributes x /\
    attributes x !! key <> attributes y !! key.

(** [hash] returns a machine word: a [Py_hash_t] of 64 bits. *)
Definition hash_in_range (h : string -> Z) : Prop :=
  forall s, (- 2 ^ 63 <= h s < 2 ^ 63)%Z.

(** Builtins for the examples: [repr] as Python prints [None], booleans,
    integers and strings of plain letters, and as an object's own
    [__repr__] has it; a checksum for [hash] (Python's own is keyed anew by
    every process). *)
Definition repr_value (v : value) : string :=
  match v with
  | VNone => "None"
  | VBool true => "True"
  | VBool false => "False"
  | VInt z => pretty z
  | VStr s => "'" +:+ s +:+ "'"
  | VObj text _ => text
  end.

Fixpoint checksum (s : string) : Z :=
  match s with
  | EmptyString => 0%Z
  | String c s' => ((Z.of_N (Ascii.N_of_ascii c) + checksum s') `mod` 2 ^ 64)%Z
  end.

Definition example_builtins : Builtins :=
  {| repr := repr_value; hash := fun s => (checksum s - 2 ^ 63)%Z |}.

(** An instance whose one declared attribute [a] holds the integer [n]. *)
Definition numbered (n : nat) : obj :=
  {| _comparable_attributes := ["a"];
     attributes := {[ "a" := VInt (Z.of_nat n) ]} |}.

(** [repr] of an object is what the [__repr__] of its class returns. *)
Definition custom_repr (B : Builtins) : Prop :=
  forall text id, @repr B (VObj text id) = text.

(** Two transactions whose [payee] is an object of a class [Payee] with
    [def __repr__(self): return self.name]: two payees of the same name,
    told apart by their number. *)
Definition grocer_one : obj :=
  {| _comparable_attributes := ["payee"];
     attributes := {[ "payee" := VObj "Grocer" 1 ]} |}.

Definition grocer_two : obj :=
  {| _comparable_attributes := ["payee"];
     attributes := {[ "payee" := VObj "Grocer" 2 ]} |}.

End Comparable.

(** ** [AccountAuthenticator] *)

Module AccountAuthenticator.

(** A cookie as the browser driver hands it over: a [dict] from field names
    ([name], [value], [domain], [httpOnly], [expiry], ...) to values. *)
Abbreviation cookie := (gmap string value).

(** The headless browser behind [self._driver]: the cookies of its jar,
    whether it is still open, and how often [quit] was called on it. *)
Record driver : Type := {
  jar : list cookie;
  is_open : bool;
  quit_calls : nat;
}.

(** [self._driver.get_cookies()]: on an open browser a fresh list of fresh
    dicts, so deleting keys from them leaves the browser's jar as it was; a
    browser that is closed cannot be asked, and the driver raises. *)
Definition get_cookies (d : driver) : result (list cookie) :=
  if is_open d then Ok (jar d)
  else Raise (WebDriverException "the browser cannot be reached").

(** [quit]: [self._driver.quit()], as it leaves the browser: closed, with
    one more call of [quit] made on it. [get_authenticated_session] reaches
    it on an open browser only; whether a driver raises on a handle that is
    closed already is the driver's own, and nothing here says it. *)
Definition quit (d : driver) : driver :=
  {| jar := jar d; is_open := false; quit_calls := S (quit_calls d) |}.

(** The HTTP client: [Session()] makes a session with an empty cookie jar,
    and [session.cookies.set], called with the cookie's fields as keyword
    arguments, stores a cookie or raises. *)
Class SessionAPI (session : Type) : Type := {
  Session : session;
  cookies_set : session -> cookie -> result session;
}.

(** [del cookie[key]] *)
Definition delitem (key : string) (c : cookie) : result cookie :=
  match c !! key with
  | Some _ => Ok (delete key c)
  | None => Raise (KeyError key)
  end.

(** [try: del cookie[invalid]] / [except KeyError: pass] *)
Definition try_del (invalid : string) (c : cookie) : result cookie :=
  match delitem invalid c with
  | Ok c' => Ok c'
  | Raise (KeyError _) => Ok c
  | Raise e => Raise e
  end.

(** [for invalid in ['httpOnly', 'expiry']: ...] *)
Fixpoint strip (invalids : list string) (c : cookie) : result cookie :=
  match invalids with
  | [] => Ok c
  | invalid :: rest =>
      c' ← try_del invalid c;
      strip rest c'
  end.

Definition invalid_keys : list string := ["httpOnly"; "expiry"].

Section WithSession.
Context {session : Type} `{SessionAPI session}.

(** [for cookie in self._driver.get_cookies(): ...] *)
Fixpoint transfer (cs : list cookie) (s : session) : result session :=
  match cs with
  | [] => Ok s
  | c :: cs' =>
      c' ← strip invalid_keys c;
      s' ← cookies_set s c';
      transfer cs' s'
  end.

(** [get_authenticated_session]: the browser as the call leaves it, and the
    session it returns or the exception it raises. *)
Definition get_authenticated_session (d : driver) : driver * result session :=
  match (cs ← get_cookies d; transfer cs Session) with
  | Ok s => (quit d, Ok s)
  | Raise e => (d, Raise e)
  end.

(** Storing a list of cookies one after the other, as they are. *)
Fixpoint set_all (cs : list cookie) (s : session) : result session :=
  match cs with
  | [] => Ok s
  | c :: cs' =>
      s' ← cookies_set s c;
      set_all cs' s'
  end.

End WithSession.

(** A cookie with the two browser-only keys removed. *)
Definition stripped (c : cookie) : cookie :=
  delete "expiry" (delete "httpOnly" c).

(** *** What is known of the session's [cookies.set]

    The session is a [requests.Session], and [session.cookies.set] is
    [RequestsCookieJar.set(self, name, value, **kwargs)]. The keywords that
    [create_cookie], which it calls, knows beside [name] and [value]: *)
Definition cookie_keywords : list string :=
  ["version"; "port"; "domain"; "path"; "secure"; "expires"; "discard";
   "comment"; "comment_url"; "rest"; "rfc2109"].



Section Requests.
Context {session : Type} `{SessionAPI session}.

(** A call of [set] without [name] or without [value] raises [TypeError]:
    both are required parameters. *)
Definition requires_name_and_value : Prop :=
  forall s c, c !! "name" = None \/ c !! "value" = None ->
    exists msg, cookies_set s c = Raise (TypeError msg).

(** With a [value] that is not [None], [set] has [create_cookie] build the
    cookie, which raises [TypeError] for a keyword it does not know. *)
Definition rejects_unknown_keywords : Prop :=
  forall s c key v,
    is_Some (c !! "name") -> c !! "value" = Some v -> v <> VNone ->
    is_Some (c !! key) -> key ∉ "name" :: "value" :: cookie_keywords ->
    exists msg, cookies_set s c = Raise (TypeError msg).


End Requests.

(** *** A session for the examples

    It does as requests does with the cookies a browser hands over. Its
    jar lists the cookies stored, in no order that matters, each with the
    fields it was given and its [domain] and [path], given or by default.
    Two things requests does to a cookie it stores are left out, which no
    cookie of a browser meets: [version] and [expires] are kept as given
    (requests converts them to numbers), and so is a value between double
    quotes (requests may unescape it). *)

(** Python compares [True] and [1], [False] and [0] as equal, also as the
    keys of a [dict]. *)
Definition py_key (v : value) : value :=
  match v with
  | VBool b => VInt (Z.b2z b)
  | _ => v
  end.

Definition with_default (key : string) (v : value) (c : cookie) : cookie :=
  match c !! key with
  | Some _ => c
  | None => <[key := v]> c
  end.

Definition same_place (c c' : cookie) : Prop :=
  py_key <$> c !! "domain" = py_key <$> c' !! "domain" /\
  py_key <$> c !! "path" = py_key <$> c' !! "path" /\
  py_key <$> c !! "name" = py_key <$> c' !! "name".

#[global] Instance same_place_dec (c c' : cookie) : Decision (same_place c c').
Proof. unfold same_place. apply _. Defined.

(** [kwargs.get(key)]: [None] for a key that is missing as for one given as
    [None]. *)
Definition given (kwargs : cookie) (key : string) : option value :=
  match kwargs !! key with
  | Some VNone => None
  | o => py_key <$> o
  end.

(** [remove_cookie_by_name(jar, name, domain, path)] clears the cookies of
    that name, of that domain when one is given and of that path when one
    is given. *)
Definition cleared (name : value) (kwargs old : cookie) : Prop :=
  py_key <$> old !! "name" = Some (py_key name) /\
  (given kwargs "domain" = None \/
   py_key <$> old !! "domain" = given kwargs "domain") /\
  (given kwargs "path" = None \/
   py_key <$> old !! "path" = given kwargs "path").

#[global] Instance cleared_dec (name : value) (kwargs old : cookie) :
  Decision (cleared name kwargs old).
Proof. unfold cleared. apply _. Defined.

(** [set]: [name] and [value] are required; a [value] of [None] clears the
    cookies of that name; otherwise the keywords must be known, the domain
    must be a string ([create_cookie] asks whether it starts with a dot),
    and the cookie is stored in the place of the one of the same domain,
    path and name. *)
Definition jar_set (s : list cookie) (c : cookie) : result (list cookie) :=
  match c !! "name", c !! "value" with
  | Some name, Some v =>
      if decide (v = VNone)
      then Ok (filter (fun old => ~ cleared name c old) s)
      else if decide (map_Forall
                        (fun key _ => key ∈ "name" :: "value" :: cookie_keywords) c)
      then
        let c' := with_default "path" (VStr "/")
                    (with_default "domain" (VStr "") c) in
        match c' !! "domain" with
        | Some (VStr _) => Ok (filter (fun old => ~ same_place old c') s ++ [c'])
        | _ => Raise (AttributeError "startswith")
        end
      else Raise (TypeError "create_cookie() got unexpected keyword arguments")
  | _, _ => Raise (TypeError "set() missing a required argument")
  end.

Definition example_session : SessionAPI (list cookie) :=
  {| Session := []; cookies_set := jar_set |}.


(** The cookie of the specification's example. *)
Definition spec_cookie : cookie :=
  {[ "name" := VStr "a"; "value" := VStr "1"; "httpOnly" := VBool true;
     "expiry" := VInt 123; "domain" := VStr "x" ]}.

(** A cookie the browser holds without the two browser-only keys. *)
Definition plain_cookie : cookie :=
  {[ "name" := VStr "sid"; "value" := VStr "42" ]}.

(** A cookie the session refuses: it has no [value]. *)
Definition broken_cookie : cookie :=
  {[ "name" := VStr "b"; "httpOnly" := VBool false ]}.



Definition browser (cs : list cookie) : driver :=
  {| jar := cs; is_open := true; quit_calls := 0 |}.

End AccountAuthenticator.

(** * Properties *)

(** ** [Transaction._clean_up] *)

Section CleanUp.
Import Transaction.
Local Open Scope N_scope.

(** Replacing a one-character pattern by nothing deletes that character. *)
Lemma replace_char_filter (c : N) (s : pystr) :
  replace [c] [] s = filter (fun x => x <> c) s.
Proof.
  unfold replace. induction s as [|x s IH]; [done|].
  cbn [replace_from startswith length pred].
  rewrite andb_true_r.
  destruct (N.eqb_spec x c) as [->|Hne].
  - rewrite filter_cons_False by (intros Hc; by apply Hc). by rewrite IH.
  - rewrite filter_cons_True by done. by rewrite IH.
Qed.

Lemma _clean_up_filter (s : pystr) :
  _clean_up s = filter (fun x => x <> NUL) (join [SPACE] (split s)).
Proof. apply replace_char_filter. Qed.

Lemma split_from_words (s tok : pystr) :
  Forall (fun c => isspace c = false) tok ->
  Forall word (split_from tok s).
Proof.
  revert tok. induction s as [|c s IH]; intros tok Htok; simpl.
  - destruct tok; [constructor|]. constructor; [by split|constructor].
  - destruct (isspace c) eqn:Hc.
    + destruct tok.
      * by apply IH.
      * constructor; [by split|]. by apply IH.
    + apply IH, Forall_app. split; [done|]. constructor; [done|constructor].
Qed.

Lemma split_words (s : pystr) : Forall word (split s).
Proof. by apply split_from_words. Qed.

(** Every character of a word of [split_from tok s] comes from [tok] or [s]. *)
Lemma split_from_chars (s tok w : pystr) (x : N) :
  w ∈ split_from tok s -> x ∈ w -> x ∈ tok \/ x ∈ s.
Proof.
  revert tok. induction s as [|c s IH]; intros tok Hw Hx; simpl in Hw.
  - destruct tok; [by apply elem_of_nil in Hw|].
    apply list_elem_of_singleton in Hw as ->. by left.
  - destruct (isspace c).
    + destruct tok.
      * destruct (IH _ Hw Hx) as [?|?]; [by left|right; by constructor].
      * apply elem_of_cons in Hw as [->|Hw]; [by left|].
        destruct (IH _ Hw Hx) as [Hnil|?]; [by apply elem_of_nil in Hnil|].
        right; by constructor.
    + destruct (IH _ Hw Hx) as [Htok|?]; [|right; by constructor].
      apply elem_of_app in Htok as [?|Hc]; [by left|].
      apply list_elem_of_singleton in Hc as ->. right; constructor.
Qed.

Lemma join_chars (sep : pystr) (ws : list pystr) (x : N) :
  x ∈ join sep ws -> x ∈ sep \/ exists w, w ∈ ws /\ x ∈ w.
Proof.
  induction ws as [|w ws IH]; simpl; [by intros ?%elem_of_nil|].
  destruct ws as [|w' ws].
  - intros Hx. right. exists w. split; [constructor|done].
  - rewrite !elem_of_app. intros [Hx|[Hx|Hx]].
    + right. exists w. split; [constructor|done].
    + by left.
    + destruct (IH Hx) as [?|(v & Hv & ?)]; [by left|].
      right. exists v. split; [by constructor|done].
Qed.

Lemma word_leading_space (w rest : pystr) :
  word w -> leading_space (w ++ rest) = false.
Proof.
  intros [Hne Hw]. destruct w as [|c w]; [done|].
  by apply Forall_cons in Hw as [Hc _].
Qed.

Lemma word_trailing_space (w : pystr) : word w -> trailing_space w = false.
Proof.
  intros [Hne Hw]. unfold trailing_space.
  destruct (last w) as [c|] eqn:Hlast; [|done].
  apply last_Some_elem_of in Hlast.
  by apply (proj1 (Forall_forall _ _) Hw).
Qed.

Lemma nonspace_app_space_run (w rest : pystr) :
  Forall (fun c => isspace c = false) w ->
  space_run (w ++ rest) = space_run rest.
Proof.
  induction 1 as [|c w Hc _ IH]; [done|].
  simpl. by rewrite Hc, IH.
Qed.

Lemma join_word_nonempty (sep : pystr) (w : pystr) (ws : list pystr) :
  word w -> join sep (w :: ws) <> [].
Proof.
  intros [Hne _]. simpl. destruct ws; [done|].
  by destruct w.
Qed.

(** Words joined by one separator: no whitespace in front or at the end,
    and no two whitespace characters in a row. *)
Lemma join_words_normalised (c : N) (ws : list pystr) :
  Forall word ws ->
  leading_space (join [c] ws) = false /\
  trailing_space (join [c] ws) = false /\
  space_run (join [c] ws) = false.
Proof.
  induction 1 as [|w ws Hw Hws (IHl & IHt & IHr)]; [done|].
  cbn [join]. destruct ws as [|w' ws].
  - split_and!.
    + rewrite <-(app_nil_r w). by apply word_leading_space.
    + by apply word_trailing_space.
    + rewrite <-(app_nil_r w), nonspace_app_space_run; [done|apply Hw].
  - assert (join [c] (w' :: ws) <> []) as Hne.
    { apply join_word_nonempty. by apply Forall_cons in Hws as [? _]. }
    split_and!.
    + by apply word_leading_space.
    + unfold trailing_space in *. rewrite !last_app.
      destruct (last (join [c] (w' :: ws))) eqn:Hlast; [done|].
      by apply last_None in Hlast.
    + rewrite nonspace_app_space_run by apply Hw.
      cbn [app space_run]. by rewrite IHl, IHr, andb_false_r.
Qed.

Lemma filter_all {A : Type} (P : A -> Prop) `{forall x, Decision (P x)}
    (l : list A) :
  (forall x, x ∈ l -> P x) -> filter P l = l.
Proof.
  induction l as [|x l IH]; intros Hall; [done|].
  rewrite filter_cons_True by (apply Hall; constructor).
  f_equal. apply IH. intros y Hy. apply Hall. by constructor.
Qed.

Lemma clean_up_without_nul (s : pystr) :
  NUL ∉ s -> _clean_up s = join [SPACE] (split s).
Proof.
  intros Hs. rewrite _clean_up_filter. apply filter_all.
  intros x [Hx|(w & Hw & Hx)]%join_chars.
  - by apply list_elem_of_singleton in Hx as ->.
  - destruct (split_from_chars _ _ _ _ Hw Hx) as [Hnil|Hin].
    + by apply elem_of_nil in Hnil.
    + intros ->. by apply Hs.
Qed.

(** C4 (as the specification states it, refuted): on two spaces, [A], NUL,
    [B], three spaces, [C], one space, [_clean_up] does not return [A B C]. *)
Lemma clean_up_spec_example_not_A_B_C :
  _clean_up [32; 32; 65; 0; 66; 32; 32; 32; 67; 32] <> [65; 32; 66; 32; 67].
Proof. vm_compute. discriminate. Qed.

(** C4 (amended): on that input [_clean_up] returns [AB C]: the NUL is not
    whitespace, so [A], NUL and [B] are one word of [split], and deleting
    the NUL afterwards leaves [AB]. *)
Theorem clean_up_spec_example :
  _clean_up [32; 32; 65; 0; 66; 32; 32; 32; 67; 32] = [65; 66; 32; 67].
Proof.
  rewrite _clean_up_filter.
  assert (split [32; 32; 65; 0; 66; 32; 32; 32; 67; 32] = [[65; 0; 66]; [67]])
    as -> by reflexivity.
  reflexivity.
Qed.

(** C5 (where the code departs from the claim): a NUL that stands alone
    between whitespace is a word of its own, so deleting it after the join
    leaves the two spaces around it side by side, and a NUL word at
    either end leaves a space in front or at the end. *)
Theorem clean_up_nul_between_spaces :
  _clean_up [65; 32; 0; 32; 66] = [65; 32; 32; 66] /\
  space_run (_clean_up [65; 32; 0; 32; 66]) = true /\
  leading_space (_clean_up [0; 32; 65]) = true /\
  trailing_space (_clean_up [65; 32; 0]) = true.
Proof. by vm_compute. Qed.

(** Without NUL characters in the input the result is as the claim C5
    describes it: the words of the input joined by single spaces, with no
    whitespace in front or at the end and no two whitespace characters in a
    row. *)
Theorem clean_up_normalised_without_nul (s : pystr) :
  NUL ∉ s ->
  leading_space (_clean_up s) = false /\
  trailing_space (_clean_up s) = false /\
  space_run (_clean_up s) = false.
Proof.
  intros Hs. rewrite clean_up_without_nul by done.
  apply join_words_normalised, split_words.
Qed.

Lemma clean_up_normalised_without_nul_witness :
  (NUL ∉ [32; 65; 9; 10; 66; 32]) /\
  leading_space (_clean_up [32; 65; 9; 10; 66; 32]) = false /\
  trailing_space (_clean_up [32; 65; 9; 10; 66; 32]) = false /\
  space_run (_clean_up [32; 65; 9; 10; 66; 32]) = false.
Proof.
  assert (NUL ∉ [32; 65; 9; 10; 66; 32]) as Hs.
  { apply (bool_decide_unpack _). by vm_compute. }
  split; [exact Hs|].
  exact (clean_up_normalised_without_nul [32; 65; 9; 10; 66; 32] Hs).
Defined.

(** C10: [_clean_up] returns on every string, and what it returns holds no
    NUL character, wherever the NULs of the input stood. *)
Theorem clean_up_no_nul (s : pystr) :
  exists r, _clean_up s = r /\ NUL ∉ r.
Proof.
  exists (_clean_up s). split; [done|].
  rewrite _clean_up_filter. intros [Hne _]%list_elem_of_filter. by apply Hne.
Qed.

End CleanUp.

(** ** [Comparable] *)

Section ComparableProperties.
Import Comparable.
Context `{Builtins}.

(** The comprehension reads the instance only under the listed keys. *)
Lemma comprehension_ext (x y : obj) (keys : list string) d :
  (forall key, key ∈ keys -> attributes x !! key = attributes y !! key) ->
  comprehension x keys d = comprehension y keys d.
Proof.
  revert d. induction keys as [|key keys IH]; intros d Hkeys; [done|].
  simpl. unfold getattr. rewrite <-(Hkeys key) by constructor.
  destruct (attributes x !! key); [simpl|done].
  apply IH. intros k Hk. apply Hkeys. by constructor.
Qed.

Lemma comprehension_returns (x : obj) (keys : list string) d :
  (forall key, key ∈ keys -> is_Some (attributes x !! key)) ->
  returns (comprehension x keys d).
Proof.
  revert d. induction keys as [|key keys IH]; intros d Hkeys.
  - by exists d.
  - simpl. unfold getattr.
    destruct (Hkeys key) as [v ->]; [constructor|]. simpl.
    apply IH. intros k Hk. apply Hkeys. by constructor.
Qed.

Lemma setitem_present (key : string) (v : value) (d : list (string * value)) :
  key ∈ d.*1 -> (setitem key v d).*1 = d.*1.
Proof.
  induction d as [|[k w] d IH]; [by intros ?%elem_of_nil|].
  simpl. intros Hin. destruct (decide (k = key)) as [->|Hne]; [done|].
  simpl. f_equal. apply IH.
  apply elem_of_cons in Hin as [?|?]; [congruence|done].
Qed.

Lemma setitem_new (key : string) (v : value) (d : list (string * value)) :
  key ∉ d.*1 -> setitem key v d = d ++ [(key, v)].
Proof.
  induction d as [|[k w] d IH]; [done|]. simpl. intros Hnew.
  destruct (decide (k = key)) as [->|Hne].
  - exfalso. apply Hnew. constructor.
  - simpl. f_equal. apply IH. intros Hin. apply Hnew. by constructor.
Qed.

Lemma setitem_elem (key : string) (v : value) (d : list (string * value))
    (k : string) (w : value) :
  (k, w) ∈ setitem key v d -> (k, w) = (key, v) \/ (k, w) ∈ d.
Proof.
  induction d as [|[k' w'] d IH]; simpl.
  - intros ?%list_elem_of_singleton. by left.
  - destruct (decide (k' = key)).
    + intros [?|?]%elem_of_cons; [by left|right; by constructor].
    + intros [->|Hin]%elem_of_cons; [right; constructor|].
      destruct (IH Hin); [by left|right; by constructor].
Qed.

Lemma setitem_keys_elem (key : string) (v : value) (d : list (string * value))
    (k : string) :
  k ∈ (setitem key v d).*1 <-> k = key \/ k ∈ d.*1.
Proof.
  destruct (decide (key ∈ d.*1)).
  - rewrite setitem_present by done. split; [by right|by intros [->|?]].
  - rewrite setitem_new, fmap_app, elem_of_app by done. simpl.
    rewrite list_elem_of_singleton. tauto.
Qed.

Lemma setitem_keys_NoDup (key : string) (v : value) (d : list (string * value)) :
  NoDup d.*1 -> NoDup (setitem key v d).*1.
Proof.
  intros Hd. destruct (decide (key ∈ d.*1)).
  - by rewrite setitem_present.
  - rewrite setitem_new, fmap_app by done. apply NoDup_app.
    split_and!; [done| |apply NoDup_singleton].
    by intros x Hx ->%list_elem_of_singleton.
Qed.

(** What the comprehension builds on top of [d0]: no key twice, the keys
    of [d0] and the listed ones, each with the value the instance holds,
    and in the order listed when no listed key repeats or is in [d0]. *)
Lemma comprehension_shape (x : obj) (keys : list string)
    (d0 d : list (string * value)) :
  comprehension x keys d0 = Ok d ->
  NoDup d0.*1 ->
  (forall k v, (k, v) ∈ d0 -> attributes x !! k = Some v) ->
  NoDup d.*1 /\
  (forall k, k ∈ d.*1 <-> k ∈ d0.*1 \/ k ∈ keys) /\
  (forall k v, (k, v) ∈ d -> attributes x !! k = Some v) /\
  (NoDup keys -> (forall k, k ∈ keys -> k ∉ d0.*1) -> d.*1 = d0.*1 ++ keys).
Proof.
  revert d0. induction keys as [|key keys IH]; intros d0 Hd Hnd Hval.
  - injection Hd as <-. split_and!; [done| |done|].
    + intros k. split; [by left|]. by intros [?|?%elem_of_nil].
    + intros _ _. by rewrite app_nil_r.
  - simpl in Hd. unfold getattr in Hd.
    destruct (attributes x !! key) as [v|] eqn:Hkey; [|done]. simpl in Hd.
    destruct (IH _ Hd) as (Hnd' & Hkeys' & Hval' & Horder').
    + by apply setitem_keys_NoDup.
    + intros k w [[= -> ->]|?]%setitem_elem; [done|by apply Hval].
    + split_and!; [done| |done|].
      * intros k. rewrite Hkeys', setitem_keys_elem, elem_of_cons. tauto.
      * intros [Hfirst Hrest]%NoDup_cons Hfresh.
        rewrite Horder'; [|done|].
        -- rewrite setitem_new by (apply Hfresh; constructor).
           rewrite fmap_app. simpl. by rewrite <-app_assoc.
        -- intros k Hk [->|Hin]%setitem_keys_elem; [done|].
           apply (Hfresh k); [by constructor|done].
Qed.

Lemma comprehension_returns_inv (x : obj) (keys : list string)
    (d : list (string * value)) :
  returns (comprehension x keys d) ->
  forall key, key ∈ keys -> is_Some (attributes x !! key).
Proof.
  revert d. induction keys as [|k keys IH]; intros d [d' Hd] key Hkey;
    [by apply elem_of_nil in Hkey|].
  simpl in Hd. unfold getattr in Hd.
  destruct (attributes x !! k) as [v|] eqn:Hk; [|done]. simpl in Hd.
  apply elem_of_cons in Hkey as [->|Hkey]; [by rewrite Hk|].
  apply (IH (setitem k v d)); [by exists d'|done].
Qed.

Lemma comparable_data_returns (x : obj) :
  declared_readable x -> returns (_comparable_data x).
Proof. apply comprehension_returns. Qed.

Lemma hash_of_data (x : obj) d :
  _comparable_data x = Ok d -> __hash__ x = Ok (hash (str d)).
Proof. unfold __hash__. by intros ->. Qed.


(** [__eq__] between two instances, once both hashes are there. *)
Lemma eq_of_hashes (x y : obj) h h' :
  __hash__ x = Ok h -> __hash__ y = Ok h' ->
  __eq__ x (IsComparable y) = Ok (h =? h')%Z.
Proof. unfold __eq__. by intros -> ->. Qed.

Lemma eq_returns_inv (x y : obj) b :
  __eq__ x (IsComparable y) = Ok b ->
  exists h h', __hash__ x = Ok h /\ __hash__ y = Ok h' /\ b = (h =? h')%Z.
Proof.
  unfold __eq__.
  destruct (__hash__ x) as [h|e]; simpl; [|done].
  destruct (__hash__ y) as [h'|e]; simpl; [|done].
  intros [= <-]. by exists h, h'.
Qed.

(** [__ne__] answers the opposite of [__eq__], and raises where it raises. *)
Lemma ne_is_not_eq (x : obj) (other : pyobj) :
  __ne__ x other =
  match __eq__ x other with Ok b => Ok (negb b) | Raise e => Raise e end.
Proof.
  destruct other as [y|v]; [|done]. unfold __ne__, __eq__.
  destruct (__hash__ x); simpl; [|done]. by destruct (__hash__ y).
Qed.

(** C1: two instances that hold the same value under every attribute they
    declare are equal for [__eq__] and have the same [__hash__], whatever
    else their attributes hold. *)
Theorem same_declared_eq_and_hash (x y : obj) :
  same_declared x y ->
  __eq__ x (IsComparable y) = Ok true /\
  exists h, __hash__ x = Ok h /\ __hash__ y = Ok h.
Proof.
  intros [Hattrs Hsame].
  assert (_comparable_data x = _comparable_data y) as Hdata.
  { unfold _comparable_data. rewrite <-Hattrs. apply comprehension_ext.
    intros key Hkey. destruct (Hsame key Hkey) as (v & -> & ->). done. }
  destruct (comparable_data_returns x) as [d Hd].
  { intros key Hkey. destruct (Hsame key Hkey) as (v & -> & _). by exists v. }
  assert (__hash__ x = Ok (hash (str d))) as Hx by by apply hash_of_data.
  assert (__hash__ y = Ok (hash (str d))) as Hy
    by (apply hash_of_data; by rewrite <-Hdata).
  split; [|by exists (hash (str d))].
  rewrite (eq_of_hashes _ _ _ _ Hx Hy). by rewrite Z.eqb_refl.
Qed.

(** The mappings of two instances that differ under a declared attribute
    differ. *)
Lemma differ_declared_data (x y : obj) (dx dy : list (string * value)) :
  differ_declared x y ->
  _comparable_data x = Ok dx -> _comparable_data y = Ok dy -> dx <> dy.
Proof.
  intros (Hdecl & _ & _ & k & Hk & Hdiff) Hx Hy Heq. subst dy.
  destruct (comprehension_shape x _ [] dx Hx) as (_ & Hkeys & Hvalx & _);
    [constructor|by intros ? ? ?%elem_of_nil|].
  destruct (comprehension_shape y _ [] dx Hy) as (_ & _ & Hvaly & _);
    [constructor|by intros ? ? ?%elem_of_nil|].
  assert (k ∈ dx.*1) as Hin by (apply Hkeys; by right).
  apply list_elem_of_fmap in Hin as ([k' v] & -> & Hkv). simpl in *.
  apply Hdiff. by rewrite (Hvalx _ _ Hkv), (Hvaly _ _ Hkv).
Qed.

(** C2 (amended): for two instances that differ under a declared attribute
    both mappings are there and differ, and [__eq__] returns: [False]
    exactly when the hashes of the two serialised mappings differ, [True]
    exactly when they coincide -- as they do when the two mappings are
    serialised to the same string. *)
Theorem differ_declared_eq_false (x y : obj) :
  differ_declared x y ->
  exists dx dy,
    _comparable_data x = Ok dx /\ _comparable_data y = Ok dy /\ dx <> dy /\
    (__eq__ x (IsComparable y) = Ok false <-> hash (str dx) <> hash (str dy)) /\
    (__eq__ x (IsComparable y) = Ok true <-> hash (str dx) = hash (str dy)) /\
    (str dx = str dy -> __eq__ x (IsComparable y) = Ok true).
Proof.
  intros Hdiffer. pose proof Hdiffer as (_ & Hx & Hy & _).
  destruct (comparable_data_returns x Hx) as [dx Hdx].
  destruct (comparable_data_returns y Hy) as [dy Hdy].
  exists dx, dy.
  rewrite (eq_of_hashes _ _ _ _ (hash_of_data _ _ Hdx) (hash_of_data _ _ Hdy)).
  split_and!; [done|done|by apply (differ_declared_data x y)| | |].
  - split.
    + intros [= Hneq]. by apply Z.eqb_neq.
    + intros Hneq. f_equal. by apply Z.eqb_neq.
  - split.
    + intros [= Heq]. by apply Z.eqb_eq.
    + intros Heq. f_equal. by apply Z.eqb_eq.
  - intros ->. by rewrite Z.eqb_refl.
Qed.

(** C3: against an operand that is not a [Comparable], both [__eq__] and
    [__ne__] raise [ValueError], whatever the instance holds. *)
Theorem not_comparable_raises (x : obj) (v : value) :
  __eq__ x (NotComparable v) = Raise (ValueError "Not a Comparable object") /\
  __ne__ x (NotComparable v) = Raise (ValueError "Not a Comparable object").
Proof. split; reflexivity. Qed.

(** C8: between instances [__eq__] is equality of the two [__hash__]
    values; so it is symmetric and transitive, reflexive on every instance
    whose [__hash__] returns, and it answers [True] for two instances whose
    serialised mappings have the same hash, equal or not. *)
Theorem eq_is_hash_equality :
  (forall x y b,
     __eq__ x (IsComparable y) = Ok b <->
     exists h h', __hash__ x = Ok h /\ __hash__ y = Ok h' /\ b = (h =? h')%Z) /\
  (forall x y,
     __eq__ x (IsComparable y) = Ok true <->
     exists h, __hash__ x = Ok h /\ __hash__ y = Ok h) /\
  (forall x, returns (__hash__ x) -> __eq__ x (IsComparable x) = Ok true) /\
  (forall x y,
     __eq__ x (IsComparable y) = Ok true ->
     __eq__ y (IsComparable x) = Ok true) /\
  (forall x y z,
     __eq__ x (IsComparable y) = Ok true ->
     __eq__ y (IsComparable z) = Ok true ->
     __eq__ x (IsComparable z) = Ok true) /\
  (forall x y dx dy,
     _comparable_data x = Ok dx -> _comparable_data y = Ok dy ->
     hash (str dx) = hash (str dy) ->
     __eq__ x (IsComparable y) = Ok true).
Proof.
  assert (forall x y,
     __eq__ x (IsComparable y) = Ok true <->
     exists h, __hash__ x = Ok h /\ __hash__ y = Ok h) as Htrue.
  { intros x y. split.
    - intros (h & h' & Hx & Hy & Hb)%eq_returns_inv.
      symmetry in Hb. apply Z.eqb_eq in Hb as <-. by exists h.
    - intros (h & Hx & Hy).
      rewrite (eq_of_hashes _ _ _ _ Hx Hy). by rewrite Z.eqb_refl. }
  split_and!.
  - intros x y b. split; [apply eq_returns_inv|].
    intros (h & h' & Hx & Hy & ->). by apply eq_of_hashes.
  - exact Htrue.
  - intros x [h Hx]. apply Htrue. by exists h.
  - intros x y (h & Hx & Hy)%Htrue. apply Htrue. by exists h.
  - intros x y z (h & Hx & Hy)%Htrue (h' & Hy' & Hz)%Htrue.
    apply Htrue. exists h. split; [done|]. congruence.
  - intros x y dx dy Hx Hy Hcollide. apply Htrue.
    exists (hash (str dx)). split; [by apply hash_of_data|].
    rewrite Hcollide. by apply hash_of_data.
Qed.

End ComparableProperties.

(** *** Examples and the limits of hash equality *)

Section ComparableExamples.
Import Comparable.

(** Two transactions with the same [amount] and [payee] and different
    payloads. *)
Lemma same_declared_eq_and_hash_witness :
  let x := {| _comparable_attributes := ["amount"; "payee"];
              attributes := {[ "amount" := VInt 1250; "payee" := VStr "Grocer";
                               "_data" := VStr "first download" ]} |} in
  let y := {| _comparable_attributes := ["amount"; "payee"];
              attributes := {[ "amount" := VInt 1250; "payee" := VStr "Grocer";
                               "_data" := VStr "second download";
                               "memo" := VNone ]} |} in
  attributes x <> attributes y /\
  @__eq__ example_builtins x (IsComparable y) = Ok true /\
  exists h, @__hash__ example_builtins x = Ok h /\
            @__hash__ example_builtins y = Ok h.
Proof.
  intros x y. split.
  - intros Heq. apply (f_equal (fun m => m !! "memo")) in Heq.
    vm_compute in Heq. discriminate.
  - apply (@same_declared_eq_and_hash example_builtins x y).
    split; [reflexivity|].
    intros key Hkey. apply list_elem_of_In in Hkey.
    destruct Hkey as [<-|[<-|[]]].
    + exists (VInt 1250). split; reflexivity.
    + exists (VStr "Grocer"). split; reflexivity.
Defined.

Lemma numbered_data (n : nat) :
  _comparable_data (numbered n) = Ok [("a", VInt (Z.of_nat n))].
Proof.
  unfold _comparable_data, numbered, getattr. simpl.
  unfold getattr. simpl. by rewrite lookup_singleton_eq.
Qed.

Lemma numbered_differ (n m : nat) :
  n <> m -> differ_declared (numbered n) (numbered m).
Proof.
  intros Hnm.
  assert (forall k, declared_readable (numbered k)) as Hread.
  { intros k key Hkey%list_elem_of_singleton. subst key.
    unfold numbered; simpl. rewrite lookup_singleton_eq. by eexists. }
  split_and!; [done|apply Hread|apply Hread|].
  - exists "a". split; [constructor|].
    unfold numbered; simpl. rewrite !lookup_singleton_eq.
    intros [= Heq]. apply Hnm. lia.
Qed.

(** A hash is a machine word, the instances are without number: under
    every [hash] two instances that differ under their declared attribute
    have the same [__hash__], and so compare equal. *)
Lemma colliding_pair (B : Builtins) :
  hash_in_range (@hash B) ->
  exists n m, n <> m /\
    @__eq__ B (numbered n) (IsComparable (numbered m)) = Ok true.
Proof.
  intros Hrange.
  pose (ser := fun n : nat => @str B [("a", VInt (Z.of_nat n))]).
  pose (f := fun n : nat => Z.to_nat (@hash B (ser n) + 2 ^ 63)).
  destruct (nat_pigeonhole f (S (Z.to_nat (2 ^ 64))) (Z.to_nat (2 ^ 64)))
    as (n & m & Hnm & Hf).
  - lia.
  - intros i _. unfold f. pose proof (Hrange (ser i)). lia.
  - exists n, m. split; [lia|].
    assert (@hash B (ser n) = @hash B (ser m)) as Hcollide.
    { unfold f in Hf. pose proof (Hrange (ser n)). pose proof (Hrange (ser m)).
      lia. }
    rewrite (@eq_of_hashes B _ _ _ _
               (@hash_of_data B _ _ (numbered_data n))
               (@hash_of_data B _ _ (numbered_data m))).
    fold (ser n) (ser m). by rewrite Hcollide, Z.eqb_refl.
Qed.

Lemma example_builtins_custom_repr : custom_repr example_builtins.
Proof. by intros text id. Qed.

Lemma grocers_differ : differ_declared grocer_one grocer_two.
Proof.
  split_and!; [done| | |].
  - intros key ->%list_elem_of_singleton. by eexists.
  - intros key ->%list_elem_of_singleton. by eexists.
  - exists "payee". split; [constructor|]. by vm_compute.
Qed.

Lemma grocers_equal (B : Builtins) :
  custom_repr B -> @__eq__ B grocer_one (IsComparable grocer_two) = Ok true.
Proof.
  intros Hrepr.
  assert (_comparable_data grocer_one = Ok [("payee", VObj "Grocer" 1)]) as Hone
    by reflexivity.
  assert (_comparable_data grocer_two = Ok [("payee", VObj "Grocer" 2)]) as Htwo
    by reflexivity.
  rewrite (@eq_of_hashes B _ _ _ _
             (@hash_of_data B _ _ Hone) (@hash_of_data B _ _ Htwo)).
  unfold str, str_item. simpl. rewrite !Hrepr. by rewrite Z.eqb_refl.
Qed.

(** C2 (as the specification states it, refuted): the two grocers differ
    under their declared attribute [payee] and print the same, so [__eq__]
    answers [True] for them, whatever [hash] is; and for values that all
    print differently, no [hash] into the 64-bit range makes [__eq__]
    answer [False] on every pair of instances that differ under a declared
    attribute. *)
Lemma differ_declared_eq_not_always_false :
  differ_declared grocer_one grocer_two /\
  (forall B : Builtins,
     custom_repr B -> @__eq__ B grocer_one (IsComparable grocer_two) = Ok true) /\
  ~ exists B : Builtins,
      hash_in_range (@hash B) /\
      forall x y, differ_declared x y ->
                  @__eq__ B x (IsComparable y) = Ok false.
Proof.
  split_and!; [apply grocers_differ|apply grocers_equal|].
  intros (B & Hrange & Hclaim).
  destruct (colliding_pair B Hrange) as (n & m & Hnm & Heq).
  specialize (Hclaim _ _ (numbered_differ n m Hnm)). congruence.
Qed.

(** Two numbered instances, and the two grocers. *)
Lemma differ_declared_eq_false_witness :
  differ_declared (numbered 1) (numbered 2) /\
  @__eq__ example_builtins (numbered 1) (IsComparable (numbered 2)) = Ok false /\
  differ_declared grocer_one grocer_two /\
  @__eq__ example_builtins grocer_one (IsComparable grocer_two) = Ok true.
Proof.
  assert (differ_declared (numbered 1) (numbered 2)) as Hdiffer
    by (apply numbered_differ; lia).
  split; [exact Hdiffer|]. split.
  - destruct (@differ_declared_eq_false example_builtins _ _ Hdiffer)
      as (dx & dy & Hx & Hy & _ & Hfalse & _).
    apply Hfalse. rewrite numbered_data in Hx, Hy.
    injection Hx as <-. injection Hy as <-. vm_compute. discriminate.
  - split; [exact grocers_differ|].
    destruct (@differ_declared_eq_false example_builtins _ _ grocers_differ)
      as (dx & dy & Hx & Hy & _ & _ & _ & Hsame).
    apply Hsame. vm_compute in Hx, Hy.
    injection Hx as <-. injection Hy as <-. reflexivity.
Defined.

(** Under the checksum the payees [ab] and [ba] collide: the instances
    differ under their declared attribute and compare equal. *)
Lemma eq_is_hash_equality_witness :
  let x := {| _comparable_attributes := ["payee"];
              attributes := {[ "payee" := VStr "ab" ]} |} in
  let y := {| _comparable_attributes := ["payee"];
              attributes := {[ "payee" := VStr "ba" ]} |} in
  attributes x !! "payee" <> attributes y !! "payee" /\
  @__eq__ example_builtins x (IsComparable y) = Ok true /\
  @__eq__ example_builtins y (IsComparable x) = Ok true.
Proof.
  intros x y.
  destruct (@eq_is_hash_equality example_builtins)
    as (_ & _ & _ & Hsym & _ & Hcollide).
  assert (@__eq__ example_builtins x (IsComparable y) = Ok true) as Hxy.
  { apply (Hcollide x y [("payee", VStr "ab")] [("payee", VStr "ba")]);
      reflexivity. }
  split_and!; [by vm_compute|exact Hxy|exact (Hsym x y Hxy)].
Defined.

End ComparableExamples.

(** ** [AccountAuthenticator.get_authenticated_session] *)

Section SessionProperties.
Import AccountAuthenticator.

(** The [try] around [del] swallows the [KeyError] of a missing key. *)
Lemma try_del_delete (key : string) (c : cookie) :
  try_del key c = Ok (delete key c).
Proof.
  unfold try_del, delitem. destruct (c !! key) eqn:Hkey; [done|].
  by rewrite delete_id.
Qed.

Lemma strip_stripped (c : cookie) : strip invalid_keys c = Ok (stripped c).
Proof.
  unfold invalid_keys, stripped. simpl.
  rewrite try_del_delete. simpl. by rewrite try_del_delete.
Qed.


Context {session : Type} `{SessionAPI session}.

(** The loop stores the stripped cookies, in the order of the jar. *)
Lemma transfer_set_all (cs : list cookie) (s : session) :
  transfer cs s = set_all (stripped <$> cs) s.
Proof.
  revert s. induction cs as [|c cs IH]; intros s; [done|].
  cbn [transfer]. rewrite strip_stripped. simpl.
  destruct (cookies_set s (stripped c)); simpl; [apply IH|done].
Qed.



Lemma session_raises (d : driver) (e : exn) :
  is_open d = true ->
  transfer (jar d) Session = Raise e ->
  get_authenticated_session d = (d, Raise e).
Proof.
  intros Hopen He. unfold get_authenticated_session, get_cookies.
  rewrite Hopen. cbn [mbind result_bind]. by rewrite He.
Qed.

Lemma transfer_app (cs1 cs2 : list cookie) (s : session) :
  transfer (cs1 ++ cs2) s = (s' ← transfer cs1 s; transfer cs2 s').
Proof.
  revert s. induction cs1 as [|c cs1 IH]; intros s; [done|].
  rewrite <-app_comm_cons. cbn [transfer].
  destruct (strip invalid_keys c) as [c'|e]; simpl; [|done].
  destruct (cookies_set s c') as [s'|e]; simpl; [apply IH|done].
Qed.





(** C9: [quit] comes after the loop. When storing a cookie raises -- the
    cookies before it stored, this one refused -- the call raises that
    exception and leaves the browser as it was, open and with no [quit]
    called on it; and the browser is only ever changed by a call that
    stored every cookie of the jar. *)
Theorem quit_only_after_transfer (d : driver) :
  is_open d = true ->
  (forall cs1 c cs2 s e,
     jar d = cs1 ++ c :: cs2 ->
     transfer cs1 Session = Ok s ->
     cookies_set s (stripped c) = Raise e ->
     get_authenticated_session d = (d, Raise e)) /\
  (forall d' e, get_authenticated_session d = (d', Raise e) ->
     d' = d /\ is_open d' = true /\ quit_calls d' = quit_calls d) /\
  (forall d' r, get_authenticated_session d = (d', r) -> d' <> d ->
     exists s, set_all (stripped <$> jar d) Session = Ok s /\
               r = Ok s /\ d' = quit d).
Proof.
  intros Hopen. split_and!.
  - intros cs1 c cs2 s e Hjar Hcs1 Hc. apply session_raises; [done|].
    rewrite Hjar, transfer_app, Hcs1.
    cbn [mbind result_bind transfer]. rewrite strip_stripped.
    cbn [mbind result_bind]. by rewrite Hc.
  - intros d' e. unfold get_authenticated_session, get_cookies.
    rewrite Hopen. cbn [mbind result_bind].
    destruct (transfer (jar d) Session); [done|].
    by intros [= <- _].
  - intros d' r. unfold get_authenticated_session, get_cookies.
    rewrite Hopen. cbn [mbind result_bind].
    destruct (transfer (jar d) Session) as [s|e] eqn:Htransfer.
    + intros [= <- <-] _. exists s. by rewrite <-transfer_set_all.
    + by intros [= <- _] Hne.
Qed.

End SessionProperties.

(** *** The session of the examples does as requests does *)

Section ExampleSession.
Import AccountAuthenticator.


Lemma example_session_requires :
  @requires_name_and_value _ example_session.
Proof.
  intros s c Hmissing. cbn [cookies_set example_session]. unfold jar_set.
  destruct Hmissing as [-> | Hvalue]; [by eexists|].
  rewrite Hvalue. destruct (c !! "name"); by eexists.
Qed.

Lemma example_session_rejects :
  @rejects_unknown_keywords _ example_session.
Proof.
  intros s c key v [name Hname] Hvalue Hnone [w Hkey] Hunknown.
  cbn [cookies_set example_session]. unfold jar_set. rewrite Hname, Hvalue.
  rewrite decide_False by done. rewrite decide_False; [by eexists|].
  intros Hknown. apply Hunknown. exact (Hknown key w Hkey).
Qed.






End ExampleSession.

Section SessionExamples.
Import AccountAuthenticator.






(** The second of three cookies is refused: the call raises, the browser
    is still open, and [quit] was not called. *)
Lemma quit_only_after_transfer_witness :
  let d := browser [plain_cookie; broken_cookie; spec_cookie] in
  @get_authenticated_session _ example_session d
    = (d, Raise (TypeError "set() missing a required argument")) /\
  is_open d = true /\ quit_calls d = 0.
Proof.
  intros d.
  destruct (@quit_only_after_transfer _ example_session d eq_refl)
    as (Hraises & _).
  split; [|by split].
  eapply (Hraises [plain_cookie] broken_cookie [spec_cookie]); reflexivity.
Defined.

End SessionExamples.

(** * Further properties of the code *)

(** ** [Transaction._clean_up]: what a pass keeps and what it reaches *)

Section CleanUpShape.
Import Transaction.
Local Open Scope N_scope.

Lemma clean_up_nul_free (s : pystr) : NUL ∉ _clean_up s.
Proof.
  rewrite _clean_up_filter. intros [Hne _]%list_elem_of_filter. by apply Hne.
Qed.

Lemma space_not_visible (c : N) : isspace c = true -> ~ visible c.
Proof. intros Hc [Hv _]. congruence. Qed.

Lemma filter_visible_join_cons (w : pystr) (ws : list pystr) :
  filter visible (join [SPACE] (w :: ws))
  = filter visible w ++ filter visible (join [SPACE] ws).
Proof.
  destruct ws as [|w' ws]; [by rewrite app_nil_r|].
  cbn [join]. rewrite !filter_app.
  by rewrite (filter_cons_False _ _ _ (space_not_visible SPACE eq_refl)).
Qed.

Lemma filter_visible_join_split_from (s tok : pystr) :
  filter visible (join [SPACE] (split_from tok s)) = filter visible (tok ++ s).
Proof.
  revert tok. induction s as [|c s IH]; intros tok.
  - rewrite app_nil_r. by destruct tok.
  - cbn [split_from]. destruct (isspace c) eqn:Hc.
    + rewrite filter_app, (filter_cons_False _ _ _ (space_not_visible c Hc)).
      destruct tok as [|t tok].
      * by rewrite IH.
      * by rewrite filter_visible_join_cons, IH.
    + by rewrite IH, <-app_assoc.
Qed.

Lemma filter_visible_without_nul (s : pystr) :
  filter visible (without_nul s) = filter visible s.
Proof.
  unfold without_nul. induction s as [|c s IH]; [done|].
  destruct (decide (c = NUL)) as [->|Hc].
  - rewrite filter_cons_False by (intros Hn; by apply Hn).
    rewrite filter_cons_False by (intros [_ Hn]; by apply Hn). done.
  - rewrite (filter_cons_True (fun x => x <> NUL)) by done.
    destruct (decide (visible c)) as [Hv|Hv].
    + rewrite !(filter_cons_True visible) by done. by rewrite IH.
    + rewrite !(filter_cons_False visible) by done. done.
Qed.

(** The characters that show come through a pass as they are and in their
    order: [_clean_up] only ever touches whitespace and NULs. *)
Theorem clean_up_visible (s : pystr) :
  filter visible (_clean_up s) = filter visible s.
Proof.
  rewrite _clean_up_filter.
  change (filter visible (without_nul (join [SPACE] (split s))) = filter visible s).
  rewrite filter_visible_without_nul.
  apply (filter_visible_join_split_from s []).
Qed.

Lemma join_split_from_length (s tok : pystr) :
  (length (join [SPACE] (split_from tok s)) <= length tok + length s)%nat.
Proof.
  revert tok. induction s as [|c s IH]; intros tok.
  - destruct tok; simpl; lia.
  - cbn [split_from]. destruct (isspace c).
    + specialize (IH []). destruct tok as [|t tok]; [simpl in *; lia|].
      destruct (split_from [] s) as [|w ws]; [simpl; lia|].
      change (join [SPACE] ((t :: tok) :: w :: ws))
        with ((t :: tok) ++ [SPACE] ++ join [SPACE] (w :: ws)).
      rewrite !length_app. simpl in *. lia.
    + specialize (IH (tok ++ [c])). rewrite length_app in IH. simpl in *. lia.
Qed.

(** A pass never makes a text longer. *)
Theorem clean_up_length (s : pystr) :
  (length (_clean_up s) <= length s)%nat.
Proof.
  rewrite _clean_up_filter.
  etransitivity; [apply length_filter|].
  apply (join_split_from_length s []).
Qed.

Lemma join_space_only (ws : list pystr) (c : N) :
  Forall word ws -> c ∈ join [SPACE] ws -> isspace c = true -> c = SPACE.
Proof.
  intros Hws [Hc|(w & Hw & Hc)]%join_chars Hsp.
  - by apply list_elem_of_singleton in Hc.
  - apply (proj1 (Forall_forall _ _) Hws) in Hw as [_ Hw].
    apply (proj1 (Forall_forall _ _) Hw) in Hc. congruence.
Qed.

(** Whatever whitespace the input held -- tabs, line ends, no-break
    spaces -- the only whitespace character of the result is the plain
    space. *)
Theorem clean_up_whitespace_is_space (s : pystr) (c : N) :
  c ∈ _clean_up s -> isspace c = true -> c = SPACE.
Proof.
  rewrite _clean_up_filter. intros [_ Hc]%list_elem_of_filter.
  apply (join_space_only (split s)); [apply split_words|done].
Qed.

Lemma clean_up_whitespace_is_space_witness :
  (32 ∈ _clean_up [9; 65; 10; 160; 66; 13]) /\ isspace 32 = true /\ 32 = SPACE.
Proof.
  assert (32 ∈ _clean_up [9; 65; 10; 160; 66; 13]) as Hin.
  { apply (bool_decide_unpack _). by vm_compute. }
  split; [exact Hin|]. split; [reflexivity|].
  exact (clean_up_whitespace_is_space [9; 65; 10; 160; 66; 13] 32 Hin eq_refl).
Defined.

End CleanUpShape.

(** ** [Transaction._clean_up]: fixed points, words and repeated passes *)

Section CleanUpFixedPoints.
Import Transaction.
Local Open Scope N_scope.

Lemma space_run_cons (c : N) (s : pystr) :
  space_run (c :: s) = false ->
  (isspace c = true -> leading_space s = false) /\ space_run s = false.
Proof.
  simpl. intros [Hhere Hrest]%orb_false_iff. split; [|done].
  intros Hc. by rewrite Hc in Hhere.
Qed.

(** On a text in clean form, joining the words of [split] by single spaces
    gives the text back; [tok] is the word under way. *)
Lemma join_split_from_clean (s tok : pystr) :
  (tok = [] -> leading_space s = false) ->
  (forall c, c ∈ s -> isspace c = true -> c = SPACE) ->
  trailing_space (tok ++ s) = false ->
  space_run s = false ->
  join [SPACE] (split_from tok s) = tok ++ s.
Proof.
  revert tok. induction s as [|c s IH]; intros tok Hlead Hsp Htrail Hrun.
  - rewrite app_nil_r. by destruct tok.
  - apply space_run_cons in Hrun as [Hnext Hrun].
    assert (forall c', c' ∈ s -> isspace c' = true -> c' = SPACE) as Hsp'.
    { intros c' Hc'. apply Hsp. by constructor. }
    cbn [split_from]. destruct (isspace c) eqn:Hc.
    + assert (c = SPACE) as -> by (apply Hsp; [constructor|done]).
      destruct tok as [|t tok].
      { specialize (Hlead eq_refl). simpl in Hlead. congruence. }
      specialize (Hnext eq_refl).
      assert (s <> []) as Hne.
      { intros ->. unfold trailing_space in Htrail.
        rewrite last_snoc in Htrail. congruence. }
      assert (trailing_space s = false) as Htrail'.
      { unfold trailing_space in *. rewrite last_app, last_cons in Htrail.
        destruct (last s) eqn:Hlast; [done|]. by apply last_None in Hlast. }
      specialize (IH [] (fun _ => Hnext) Hsp' Htrail' Hrun). simpl in IH.
      destruct (split_from [] s) as [|w ws]; [simpl in IH; congruence|].
      change (join [SPACE] ((t :: tok) :: w :: ws))
        with ((t :: tok) ++ [SPACE] ++ join [SPACE] (w :: ws)).
      by rewrite IH.
    + rewrite IH; [by rewrite <-app_assoc| | | |].
      * intros Hnil. by destruct tok.
      * done.
      * by rewrite <-app_assoc.
      * done.
Qed.

Lemma clean_fixed (s : pystr) : clean s -> _clean_up s = s.
Proof.
  intros (Hnul & Hsp & Hlead & Htrail & Hrun).
  rewrite clean_up_without_nul by done.
  by apply (join_split_from_clean s []).
Qed.

Lemma clean_up_clean (s : pystr) : NUL ∉ s -> clean (_clean_up s).
Proof.
  intros Hs. split; [apply clean_up_nul_free|].
  rewrite clean_up_without_nul by done. split.
  - intros c. apply join_space_only, split_words.
  - apply join_words_normalised, split_words.
Qed.

(** The texts a pass leaves as they are, are the texts in clean form. *)
Theorem clean_up_fixed_points (s : pystr) : _clean_up s = s <-> clean s.
Proof.
  split; [|apply clean_fixed]. intros Heq.
  assert (NUL ∉ s) as Hs by (rewrite <-Heq; apply clean_up_nul_free).
  rewrite <-Heq. by apply clean_up_clean.
Qed.

(** On a text without NUL a second pass changes nothing. *)
Theorem clean_up_idempotent (s : pystr) :
  NUL ∉ s -> _clean_up (_clean_up s) = _clean_up s.
Proof. intros Hs. by apply clean_fixed, clean_up_clean. Qed.

Lemma clean_up_idempotent_witness :
  (NUL ∉ [9; 65; 32; 32; 66; 10]) /\
  _clean_up (_clean_up [9; 65; 32; 32; 66; 10]) = [65; 32; 66].
Proof.
  assert (NUL ∉ [9; 65; 32; 32; 66; 10]) as Hs.
  { apply (bool_decide_unpack _). by vm_compute. }
  split; [exact Hs|].
  exact (clean_up_idempotent [9; 65; 32; 32; 66; 10] Hs).
Defined.

Lemma split_from_nonspace_app (w rest tok : pystr) :
  Forall (fun c => isspace c = false) w ->
  split_from tok (w ++ rest) = split_from (tok ++ w) rest.
Proof.
  intros Hw. revert tok.
  induction Hw as [|c w Hc _ IH]; intros tok; [by rewrite app_nil_r|].
  simpl. rewrite Hc, IH. by rewrite <-app_assoc.
Qed.

(** [split] undoes [join]: words joined by single spaces split into the
    same words. *)
Lemma split_join_words (ws : list pystr) :
  Forall word ws -> split (join [SPACE] ws) = ws.
Proof.
  induction 1 as [|w ws [Hne Hw] Hws IH]; [done|]. unfold split in *.
  destruct ws as [|w' ws].
  - pose proof (split_from_nonspace_app w [] [] Hw) as Happ.
    rewrite app_nil_r in Happ. cbn [join]. rewrite Happ.
    simpl. by destruct w.
  - change (join [SPACE] (w :: w' :: ws))
      with (w ++ [SPACE] ++ join [SPACE] (w' :: ws)).
    rewrite split_from_nonspace_app by done.
    cbn [app split_from]. change (isspace SPACE) with true. cbn match.
    rewrite IH. by destruct w.
Qed.

Lemma without_nul_app (s t : pystr) :
  without_nul (s ++ t) = without_nul s ++ without_nul t.
Proof. apply filter_app. Qed.

(** Deleting the NULs and splitting, against splitting and deleting the
    NULs of each word: the words are the same, but for the words of NULs
    alone, which the first does not have. *)
Lemma split_from_without_nul (s tok : pystr) :
  split_from (without_nul tok) (without_nul s)
  = filter (fun w => w <> []) (without_nul <$> split_from tok s).
Proof.
  revert tok. induction s as [|c s IH]; intros tok.
  - change (without_nul []) with (@nil N). cbn [split_from].
    destruct tok as [|t tok]; [done|].
    rewrite fmap_cons, fmap_nil.
    destruct (without_nul (t :: tok)) as [|t' tok'] eqn:Htok.
    + by rewrite filter_cons_False by (intros Hn; by apply Hn).
    + by rewrite filter_cons_True by done.
  - destruct (decide (c = NUL)) as [->|Hnul].
    + replace (without_nul (NUL :: s)) with (without_nul s)
        by (unfold without_nul;
            by rewrite (filter_cons_False _ NUL) by (intros Hn; by apply Hn)).
      cbn [split_from]. change (isspace NUL) with false. cbn match.
      rewrite <-IH, without_nul_app.
      replace (without_nul [NUL]) with (@nil N) by done.
      by rewrite app_nil_r.
    + replace (without_nul (c :: s)) with (c :: without_nul s)
        by (unfold without_nul; by rewrite (filter_cons_True _ c) by done).
      cbn [split_from]. destruct (isspace c) eqn:Hc.
      * specialize (IH []). change (without_nul []) with (@nil N) in IH.
        destruct tok as [|t tok]; [done|].
        rewrite fmap_cons.
        destruct (without_nul (t :: tok)) as [|t' tok'] eqn:Htok.
        -- by rewrite filter_cons_False by (intros Hn; by apply Hn).
        -- rewrite filter_cons_True by done. by rewrite IH.
      * rewrite <-IH, without_nul_app.
        replace (without_nul [c]) with [c]
          by (unfold without_nul; by rewrite (filter_cons_True _ c) by done).
        done.
Qed.

Lemma clean_up_is_without_nul (s : pystr) :
  _clean_up s = without_nul (join [SPACE] (split s)).
Proof. apply _clean_up_filter. Qed.

(** The words of the result are the words of the input with their NULs
    deleted, the words of NULs alone left out; without NUL in the input
    they are the words of the input. *)
Theorem clean_up_words (s : pystr) :
  split (_clean_up s) = filter (fun w => w <> []) (without_nul <$> split s) /\
  (NUL ∉ s -> split (_clean_up s) = split s).
Proof.
  split.
  - rewrite clean_up_is_without_nul. unfold split at 1.
    change (@nil N) with (without_nul []) at 1.
    rewrite split_from_without_nul.
    fold (split (join [SPACE] (split s))).
    by rewrite split_join_words by apply split_words.
  - intros Hs. rewrite clean_up_without_nul by done.
    apply split_join_words, split_words.
Qed.

Lemma clean_up_twice (s : pystr) :
  _clean_up (_clean_up s) = join [SPACE] (split (without_nul s)).
Proof.
  rewrite (clean_up_without_nul (_clean_up s)) by apply clean_up_nul_free.
  f_equal. rewrite clean_up_is_without_nul. unfold split.
  change (@nil N) with (without_nul []).
  rewrite !split_from_without_nul.
  fold (split (join [SPACE] (split s))).
  by rewrite split_join_words by apply split_words.
Qed.

(** A first pass can leave a text that is not in clean form, a second pass
    cannot: two passes give what deleting the NULs before the split gives,
    which is in clean form, and a third pass changes nothing. *)
Theorem clean_up_second_pass :
  (forall s, _clean_up (_clean_up s) = join [SPACE] (split (without_nul s))) /\
  (forall s, clean (_clean_up (_clean_up s))) /\
  (forall s, _clean_up (_clean_up (_clean_up s)) = _clean_up (_clean_up s)) /\
  (exists s, _clean_up (_clean_up s) <> _clean_up s).
Proof.
  split_and!.
  - apply clean_up_twice.
  - intros s. apply clean_up_clean, clean_up_nul_free.
  - intros s. apply clean_fixed, clean_up_clean, clean_up_nul_free.
  - exists [65; 32; 0; 32; 66]. vm_compute. discriminate.
Qed.

Lemma split_from_blank (s : pystr) : blank s -> split_from [] s = [].
Proof.
  induction 1 as [|c s Hc _ IH]; [done|]. simpl. by rewrite Hc.
Qed.

(** A text of whitespace only, the empty text among them, is cleaned up to
    the empty text; and the result is empty only for a text in which
    nothing shows. *)
Theorem clean_up_blank (s : pystr) :
  (blank s -> _clean_up s = []) /\
  (_clean_up s = [] -> filter visible s = []).
Proof.
  split.
  - intros Hs. rewrite clean_up_is_without_nul. unfold split.
    by rewrite split_from_blank.
  - intros Hempty.
    pose proof (filter_visible_join_split_from s []) as Hshow.
    change ([] ++ s) with s in Hshow. fold (split s) in Hshow.
    rewrite <-filter_visible_without_nul in Hshow.
    by rewrite <-clean_up_is_without_nul, Hempty in Hshow.
Qed.

Lemma clean_up_blank_witness :
  blank [32; 9; 10; 160; 8195] /\ _clean_up [32; 9; 10; 160; 8195] = [].
Proof.
  assert (blank [32; 9; 10; 160; 8195]) as Hs by (repeat constructor).
  split; [exact Hs|].
  exact (proj1 (clean_up_blank [32; 9; 10; 160; 8195]) Hs).
Defined.

End CleanUpFixedPoints.

(** ** [Comparable]: the compared mapping and the errors of reading it *)

Section ComparableData.
Import Comparable.

(** [_comparable_data] returns exactly when every declared attribute can be
    read. The mapping it returns has each declared name once, however often
    it is declared, with the value the instance holds under it, and nothing
    else; when no name is declared twice, the names stand in the declared
    order. *)
Theorem comparable_data_shape (x : obj) :
  (returns (_comparable_data x) <-> declared_readable x) /\
  forall d, _comparable_data x = Ok d ->
    NoDup d.*1 /\
    (forall key, key ∈ d.*1 <-> key ∈ _comparable_attributes x) /\
    (forall key v, (key, v) ∈ d -> attributes x !! key = Some v) /\
    (NoDup (_comparable_attributes x) -> d.*1 = _comparable_attributes x).
Proof.
  split.
  - split; [|apply comprehension_returns].
    intros Hreturns key. by apply (comprehension_returns_inv x _ []).
  - intros d Hd.
    destruct (comprehension_shape x _ [] d Hd) as (Hnd & Hkeys & Hval & Horder).
    + constructor.
    + by intros k v ?%elem_of_nil.
    + split_and!; [done| |done|].
      * intros key. rewrite Hkeys. split; [|by right].
        by intros [?%elem_of_nil|?].
      * intros Hdecl. apply Horder; [done|]. by intros k _ ?%elem_of_nil.
Qed.

Lemma comprehension_app (x : obj) (keys1 keys2 : list string)
    (d : list (string * value)) :
  comprehension x (keys1 ++ keys2) d
  = (d' ← comprehension x keys1 d; comprehension x keys2 d').
Proof.
  revert d. induction keys1 as [|k keys1 IH]; intros d; [done|].
  simpl. destruct (getattr x k); simpl; [apply IH|done].
Qed.

Lemma comparable_data_missing (x : obj) (pre post : list string) (k : string) :
  _comparable_attributes x = pre ++ k :: post ->
  (forall key, key ∈ pre -> is_Some (attributes x !! key)) ->
  attributes x !! k = None ->
  _comparable_data x = Raise (AttributeError k).
Proof.
  intros Hdecl Hpre Hk. unfold _comparable_data.
  rewrite Hdecl, comprehension_app.
  destruct (comprehension_returns x pre [] Hpre) as [d ->].
  simpl. unfold getattr. by rewrite Hk.
Qed.

Context `{Builtins}.

(** An instance that lacks an attribute it declares cannot be hashed or
    compared: [__hash__] raises [AttributeError] for the first declared
    name that is missing, and so do [__eq__] and [__ne__] with the instance
    on either side -- on the left whatever the other instance is (itself
    included), on the right once the left one has been hashed. *)
Theorem missing_attribute_raises (x : obj) (pre post : list string) (k : string) :
  _comparable_attributes x = pre ++ k :: post ->
  (forall key, key ∈ pre -> is_Some (attributes x !! key)) ->
  attributes x !! k = None ->
  __hash__ x = Raise (AttributeError k) /\
  (forall y, __eq__ x (IsComparable y) = Raise (AttributeError k) /\
             __ne__ x (IsComparable y) = Raise (AttributeError k)) /\
  (forall y, returns (__hash__ y) ->
             __eq__ y (IsComparable x) = Raise (AttributeError k) /\
             __ne__ y (IsComparable x) = Raise (AttributeError k)).
Proof.
  intros Hdecl Hpre Hk.
  assert (__hash__ x = Raise (AttributeError k)) as Hx.
  { unfold __hash__. by rewrite (comparable_data_missing x pre post k). }
  split_and!; [done| |].
  - intros y. unfold __eq__, __ne__. by rewrite Hx.
  - intros y [h Hy]. unfold __eq__, __ne__. by rewrite Hy, Hx.
Qed.

End ComparableData.

Section ComparableDataExamples.
Import Comparable.

(** A transaction that declares [amount] and [payee] and has no [payee],
    beside one that has both. *)
Lemma missing_attribute_raises_witness :
  let x := {| _comparable_attributes := ["amount"; "payee"];
              attributes := {[ "amount" := VInt 1250 ]} |} in
  let y := {| _comparable_attributes := ["amount"; "payee"];
              attributes := {[ "amount" := VInt 1250; "payee" := VStr "Grocer" ]} |} in
  @__hash__ example_builtins x = Raise (AttributeError "payee") /\
  @__eq__ example_builtins x (IsComparable x) = Raise (AttributeError "payee") /\
  @__eq__ example_builtins y (IsComparable x) = Raise (AttributeError "payee") /\
  @__ne__ example_builtins y (IsComparable x) = Raise (AttributeError "payee").
Proof.
  intros x y.
  assert (forall key, key ∈ ["amount"] -> is_Some (attributes x !! key)) as Hpre.
  { intros key ->%list_elem_of_singleton. by eexists. }
  destruct (@missing_attribute_raises example_builtins x ["amount"] [] "payee"
              eq_refl Hpre eq_refl) as (Hhash & Hleft & Hright).
  assert (returns (@__hash__ example_builtins y)) as Hy by (eexists; reflexivity).
  split_and!; [exact Hhash|apply Hleft|apply (Hright y Hy)|apply (Hright y Hy)].
Defined.

End ComparableDataExamples.

(** ** [AccountAuthenticator.get_authenticated_session]: where the errors of the loop come from *)

Section SessionErrors.
Import AccountAuthenticator.
Context {session : Type} `{SessionAPI session}.

(** Every exception of the loop over the cookies is one the session raised
    when it was handed a cookie of the list, stripped, after it had stored
    the cookies before it: the [KeyError] of a key that is not there to
    delete never leaves the loop. *)
Theorem cookie_loop_raises_from_the_session
    (cs : list cookie) (s : session) (e : exn) :
  transfer cs s = Raise e ->
  exists cs1 c cs2 s',
    cs = cs1 ++ c :: cs2 /\
    set_all (stripped <$> cs1) s = Ok s' /\
    cookies_set s' (stripped c) = Raise e.
Proof.
  revert s. induction cs as [|c cs IH]; intros s; [done|].
  cbn [transfer]. rewrite strip_stripped. cbn [mbind result_bind].
  destruct (cookies_set s (stripped c)) as [s1|e1] eqn:Hc; cbn [mbind result_bind].
  - intros (cs1 & c' & cs2 & s' & -> & Hcs1 & Hc')%IH.
    exists (c :: cs1), c', cs2, s'. split_and!; [done| |done].
    rewrite fmap_cons. cbn [set_all]. by rewrite Hc.
  - intros [= ->]. by exists [], c, cs, s.
Qed.

End SessionErrors.

Section SessionErrorsExamples.
Import AccountAuthenticator.

Lemma cookie_loop_raises_from_the_session_witness :
  exists cs1 c cs2 s,
    [plain_cookie; broken_cookie; spec_cookie] = cs1 ++ c :: cs2 /\
    @set_all _ example_session (stripped <$> cs1) [] = Ok s /\
    jar_set s (stripped c) = Raise (TypeError "set() missing a required argument").
Proof.
  exact (@cookie_loop_raises_from_the_session _ example_session
           [plain_cookie; broken_cookie; spec_cookie] []
           (TypeError "set() missing a required argument") eq_refl).
Defined.

End SessionErrorsExamples.

(** ** [Comparable]: when a comparison returns *)

Section ComparableErrors.
Import Comparable.


Context `{Builtins}.




End ComparableErrors.
